(** * Upstream registry of Alertmanager sources

    A shallow embedding of [internal/alertmanager/upstream.go]: the
    constructor [NewAlertmanager] with its functional options, the
    process-wide map [upstreams], and the three registry operations
    [RegisterAlertmanager], [GetAlertmanagers] and [GetAlertmanagerByName].

    Go values are embedded as follows.
    - [*Alertmanager] is a pointer: [nil] or the address of a cell of the
      heap; the heap maps addresses to [Alertmanager] structs.
    - [map[string]*Alertmanager] is a [gmap string ptr]; [range] over a map
      visits its entries in an order the runtime picks, so every function
      that ranges takes the order visited as an argument, and theorems
      quantify over every order that is a permutation of the entries.
    - [error] is the message built by [fmt.Errorf], [None] standing for the
      nil error.
    - [time.Duration] is an int64 count of nanoseconds, here a [Z].
    - dereferencing [nil] panics: functions that dereference return a
      [result]. *)

From Stdlib Require Import ZArith String Ascii.
From Stdlib.Floats Require Import SpecFloat.
From stdpp Require Import gmap strings list fin_maps.

Local Open Scope string_scope.
Local Open Scope list_scope.

(** Go's [error]: the message, as [fmt.Errorf] builds it. *)
Definition error : Type := string.

(** ** What the file imports from the rest of the program *)

(** The declarations below are used by [upstream.go] and declared elsewhere
    (packages [models], [transport] and [net/http], and the metric label
    constants of this package). They are taken as parameters. *)
Class Externals := {
  (* models.AlertGroup, models.Silence, models.Autocomplete *)
  AlertGroup : Type;
  Silence : Type;
  Autocomplete : Type;
  (* the display colours a models.LabelsColorMap assigns *)
  LabelColors : Type;
  (* http.RoundTripper and transport.Transport, both interfaces *)
  RoundTripper : Type;
  Transport : Type;
  (* keys of the error counters *)
  labelValueErrorsAlerts : string;
  labelValueErrorsSilences : string;
  (* transport.NewTransport(uri, timeout, httpTransport) *)
  NewTransport : string -> Z -> option RoundTripper ->
                 option Transport * option error
}.

(** ** Data model *)

(** [time.Duration] and [time.Second]. *)
Definition Duration : Type := Z.
Definition Second : Duration := 1000000000%Z.

(** [float64]: the counters of [alertmanagerMetrics]. *)
Definition float64 : Type := spec_float.
Definition float64_zero : float64 := S754_zero false.

(** [sync.RWMutex]; this file only ever creates its zero value. *)
Inductive RWMutex : Type := RWMutex_zero.

Definition loc : Type := positive.

(** A [*Alertmanager]. *)
Inductive ptr : Type :=
| nil
| addr (l : loc).

(** The outcome of code that may dereference a pointer. *)
Inductive result (A : Type) : Type :=
| Panic
| Return (a : A).
Arguments Panic {A}.
Arguments Return {A} a.

Section Model.
Context `{Externals}.

(** Modelled from the spec: the type [models.LabelsColorMap] is declared
    outside this file; the spec describes it as a mapping from (label name,
    label value) to an assigned display colour. *)
Definition LabelsColorMap : Type := gmap (string * string) LabelColors.

Record alertmanagerMetrics : Type := {
  errors : gmap string float64
}.

(** The struct [Alertmanager], with the fields [upstream.go] reads and
    writes. *)
Record Alertmanager : Type := {
  URI : string;
  RequestTimeout : Duration;
  ProxyRequests : bool;
  Name : string;
  transport : option Transport;
  httpTransport : option RoundTripper;
  lock : RWMutex;
  alertGroups : list AlertGroup;
  silences : gmap string Silence;
  colors : LabelsColorMap;
  autocomplete : list Autocomplete;
  metrics : alertmanagerMetrics
}.

Definition set_ProxyRequests (b : bool) (am : Alertmanager) : Alertmanager :=
  {| URI := URI am; RequestTimeout := RequestTimeout am; ProxyRequests := b;
     Name := Name am; transport := transport am;
     httpTransport := httpTransport am; lock := lock am;
     alertGroups := alertGroups am; silences := silences am;
     colors := colors am; autocomplete := autocomplete am;
     metrics := metrics am |}.

Definition set_RequestTimeout (d : Duration) (am : Alertmanager) : Alertmanager :=
  {| URI := URI am; RequestTimeout := d; ProxyRequests := ProxyRequests am;
     Name := Name am; transport := transport am;
     httpTransport := httpTransport am; lock := lock am;
     alertGroups := alertGroups am; silences := silences am;
     colors := colors am; autocomplete := autocomplete am;
     metrics := metrics am |}.

Definition set_httpTransport (t : option RoundTripper) (am : Alertmanager) : Alertmanager :=
  {| URI := URI am; RequestTimeout := RequestTimeout am;
     ProxyRequests := ProxyRequests am; Name := Name am;
     transport := transport am; httpTransport := t; lock := lock am;
     alertGroups := alertGroups am; silences := silences am;
     colors := colors am; autocomplete := autocomplete am;
     metrics := metrics am |}.

Definition set_transport (t : option Transport) (am : Alertmanager) : Alertmanager :=
  {| URI := URI am; RequestTimeout := RequestTimeout am;
     ProxyRequests := ProxyRequests am; Name := Name am;
     transport := t; httpTransport := httpTransport am; lock := lock am;
     alertGroups := alertGroups am; silences := silences am;
     colors := colors am; autocomplete := autocomplete am;
     metrics := metrics am |}.

(** [type Option func(am *Alertmanager) error]. An option is modelled by
    what it does to the descriptor it is handed and by the error it returns,
    as the three options of this file do. An option that would call into the
    registry, write to the logger or panic is outside this model: the
    theorems about arbitrary options speak of the pointer, the error and the
    descriptor that [NewAlertmanager] returns, and of nothing else. *)
Definition Option : Type := Alertmanager -> Alertmanager * option error.

(** The state of the process this file touches: the heap of descriptors,
    the package variable [upstreams], and the lines sent to the logger. *)
Record state : Type := {
  heap : gmap loc Alertmanager;
  upstreams : gmap string ptr;
  logged : list string
}.

(** [var upstreams = map[string]*Alertmanager{}] in a process that has
    allocated nothing yet. *)
Definition init : state :=
  {| heap := ∅; upstreams := ∅; logged := [] |}.

(** [p.field]: [None] when the dereference panics. A pointer of a Go
    program is nil or points to a live cell; an address outside the heap is
    treated like nil. *)
Definition deref (σ : state) (p : ptr) : option Alertmanager :=
  match p with
  | nil => None
  | addr l => heap σ !! l
  end.

(** ** Functional options *)

Definition WithProxy (proxied : bool) : Option :=
  fun am => (set_ProxyRequests proxied am, None).

Definition WithRequestTimeout (timeout : Duration) : Option :=
  fun am => (set_RequestTimeout timeout am, None).

Definition WithHTTPTransport (t : option RoundTripper) : Option :=
  fun am => (set_httpTransport t am, None).

(** ** NewAlertmanager *)

(** The loop [for _, opt := range opts]: stops at the first option that
    returns an error. *)
Fixpoint apply_opts (opts : list Option) (am : Alertmanager)
  : Alertmanager * option error :=
  match opts with
  | [] => (am, None)
  | opt :: rest =>
      let '(am', err) := opt am in
      match err with
      | Some e => (am', Some e)
      | None => apply_opts rest am'
      end
  end.

(** The struct literal of lines 24-39. *)
Definition new_descriptor (name uri : string) : Alertmanager :=
  {| URI := uri;
     RequestTimeout := (Second * 10)%Z;
     ProxyRequests := false;
     Name := name;
     transport := None;
     httpTransport := None;
     lock := RWMutex_zero;
     alertGroups := [];
     silences := ∅;
     colors := ∅;
     autocomplete := [];
     metrics := {| errors := <[labelValueErrorsAlerts := float64_zero]>
                             (<[labelValueErrorsSilences := float64_zero]> ∅) |}
  |}.

Definition store (l : loc) (am : Alertmanager) (σ : state) : state :=
  {| heap := <[l := am]> (heap σ); upstreams := upstreams σ;
     logged := logged σ |}.

(** [NewAlertmanager(name, uri, opts...)] returns the pointer and the
    error. The descriptor lives in a fresh cell; on an option's error the
    cell stays behind unreferenced and [nil] is returned. *)
Definition NewAlertmanager (name uri : string) (opts : list Option) (σ : state)
  : state * ptr * option error :=
  let l := fresh (dom (heap σ)) in
  let '(am, err) := apply_opts opts (new_descriptor name uri) in
  match err with
  | Some e => (store l am σ, nil, Some e)
  | None =>
      let '(t, err) := NewTransport (URI am) (RequestTimeout am) (httpTransport am) in
      let am := set_transport t am in
      match err with
      | Some e => (store l am σ, addr l, Some e)
      | None => (store l am σ, addr l, None)
      end
  end.

(** ** The registry *)

(** The two errors of [RegisterAlertmanager]. *)
Definition DuplicateName (name : string) : error :=
  "Alertmanager upstream '" +:+ name +:+ "' already exist".

Definition DuplicateSource (name uri : string) : error :=
  "Alertmanager upstream '" +:+ name +:+ "' already collects from '" +:+ uri +:+ "'".

Definition fmt_bool (b : bool) : string := if b then "true" else "false".

Definition configured_line (am : Alertmanager) : string :=
  "[" +:+ Name am +:+ "] Configured Alertmanager source at " +:+ URI am
      +:+ " (proxied: " +:+ fmt_bool (ProxyRequests am) +:+ ")".

(** [order] is an order in which [range upstreams] may visit the map. *)
Definition visits (σ : state) (order : list (string * ptr)) : Prop :=
  order ≡ₚ map_to_list (upstreams σ).

(** The loop of lines 64-68 over the entries still to visit: [Return (Some
    e)] when it returns the error [e], [Return None] when it falls through,
    [Panic] when it meets a nil entry first. *)
Fixpoint find_source (σ : state) (uri : string) (order : list (string * ptr))
  : result (option error) :=
  match order with
  | [] => Return None
  | (_, existingAM) :: rest =>
      match deref σ existingAM with
      | None => Panic
      | Some e =>
          if String.eqb (URI e) uri
          then Return (Some (DuplicateSource (Name e) (URI e)))
          else find_source σ uri rest
      end
  end.

Definition RegisterAlertmanager (order : list (string * ptr)) (am : ptr) (σ : state)
  : result (state * option error) :=
  match deref σ am with
  | None => Panic
  | Some a =>
      match upstreams σ !! Name a with
      | Some _ => Return (σ, Some (DuplicateName (Name a)))
      | None =>
          match find_source σ (URI a) order with
          | Panic => Panic
          | Return (Some e) => Return (σ, Some e)
          | Return None =>
              Return ({| heap := heap σ;
                         upstreams := <[Name a := am]> (upstreams σ);
                         logged := logged σ ++ [configured_line a] |}, None)
          end
      end
  end.

(** [GetAlertmanagers()]: appends every entry visited. *)
Definition GetAlertmanagers (order : list (string * ptr)) : list ptr :=
  fold_left (fun ams '(_, am) => ams ++ [am]) order [].

Definition GetAlertmanagerByName (name : string) (σ : state) : ptr :=
  match upstreams σ !! name with
  | Some am => am
  | None => nil
  end.

End Model.

(** ** Sequences of registrations *)

(** [registered σ ams σ']: starting in [σ], the calls
    [RegisterAlertmanager(am)] for the [am] of [ams], in this order, all
    return a nil error and leave the process in [σ'], each call ranging over
    the map in some order of its own. *)
Inductive registered `{Externals} : state -> list ptr -> state -> Prop :=
| registered_nil σ : registered σ [] σ
| registered_cons σ order am σ1 ams σ2 :
    visits σ order ->
    RegisterAlertmanager order am σ = Return (σ1, None) ->
    registered σ1 ams σ2 ->
    registered σ (am :: ams) σ2.

(** [always_registers σ ams]: starting in [σ], each of these calls returns
    a nil error whatever the order in which it ranges over the map. *)
Fixpoint always_registers `{Externals} (σ : state) (ams : list ptr) : Prop :=
  match ams with
  | [] => True
  | am :: rest =>
      ∀ order, visits σ order →
        ∃ σ1, RegisterAlertmanager order am σ = Return (σ1, None)
              ∧ always_registers σ1 rest
  end.

(** Every pointer stored in [upstreams] can be dereferenced. *)
Definition registry_ok `{Externals} (σ : state) : Prop :=
  ∀ k p, upstreams σ !! k = Some p → is_Some (deref σ p).

(** Every entry of [upstreams] is stored under the [Name] of its
    descriptor. *)
Definition keyed_by_name `{Externals} (σ : state) : Prop :=
  ∀ k q e, upstreams σ !! k = Some q → deref σ q = Some e → Name e = k.

(** No two entries of [upstreams] have the same [URI]. *)
Definition unique_sources `{Externals} (σ : state) : Prop :=
  ∀ k1 k2 q1 q2 e1 e2,
    upstreams σ !! k1 = Some q1 → upstreams σ !! k2 = Some q2 →
    deref σ q1 = Some e1 → deref σ q2 = Some e2 →
    URI e1 = URI e2 → k1 = k2.

(** Options that leave the timeout, respectively the snapshot fields, of
    the descriptor as they find them. *)
Definition keeps_timeout `{Externals} (opt : Option) : Prop :=
  ∀ am, RequestTimeout (opt am).1 = RequestTimeout am.

Definition keeps_snapshot `{Externals} (opt : Option) : Prop :=
  ∀ am, alertGroups (opt am).1 = alertGroups am
        ∧ silences (opt am).1 = silences am
        ∧ colors (opt am).1 = colors am
        ∧ autocomplete (opt am).1 = autocomplete am
        ∧ metrics (opt am).1 = metrics am.

(** The last byte of a string. *)
Fixpoint last_byte (s : string) : option ascii :=
  match s with
  | EmptyString => None
  | String c EmptyString => Some c
  | String _ rest => last_byte rest
  end.

(** ** Calls of the options of this file *)

(** A call of one of the three option constructors of this file. *)
Inductive setting `{Externals} : Type :=
| Proxy (proxied : bool)
| Timeout (timeout : Duration)
| RoundTrip (t : option RoundTripper).

Definition option_of `{Externals} (s : setting) : Option :=
  match s with
  | Proxy proxied => WithProxy proxied
  | Timeout timeout => WithRequestTimeout timeout
  | RoundTrip t => WithHTTPTransport t
  end.

(** The argument of the last call of each kind in a list of calls, if
    there is one. *)
Definition last_proxy `{Externals} (ss : list setting) : option bool :=
  last (omap (λ s, match s with Proxy b => Some b | _ => None end) ss).

Definition last_timeout `{Externals} (ss : list setting) : option Duration :=
  last (omap (λ s, match s with Timeout d => Some d | _ => None end) ss).

Definition last_round_trip `{Externals} (ss : list setting)
  : option (option RoundTripper) :=
  last (omap (λ s, match s with RoundTrip t => Some t | _ => None end) ss).

(** ** States the functions of this file produce *)

(** The states reached from [init] by calls of [NewAlertmanager] with
    options built by [WithProxy], [WithRequestTimeout] and
    [WithHTTPTransport], and by calls of [RegisterAlertmanager] that return,
    in any number and order. *)
Inductive reachable `{Externals} : state -> Prop :=
| reachable_init : reachable init
| reachable_new σ name uri ss σ' p e :
    reachable σ ->
    NewAlertmanager name uri (option_of <$> ss) σ = (σ', p, e) ->
    reachable σ'
| reachable_register σ order am σ' e :
    reachable σ ->
    visits σ order ->
    RegisterAlertmanager order am σ = Return (σ', e) ->
    reachable σ'.

(** ** A concrete instance, for examples *)

(** Payloads are raw strings, and the transport binds every URI. *)
Definition sample_externals : Externals :=
  {| AlertGroup := string; Silence := string; Autocomplete := string;
     LabelColors := string; RoundTripper := string; Transport := string;
     labelValueErrorsAlerts := "alerts";
     labelValueErrorsSilences := "silences";
     NewTransport := fun uri _ _ => (Some uri, None) |}.

(** The same, with a transport that binds nothing. *)
Definition unbound_externals : Externals :=
  {| AlertGroup := string; Silence := string; Autocomplete := string;
     LabelColors := string; RoundTripper := string; Transport := string;
     labelValueErrorsAlerts := "alerts";
     labelValueErrorsSilences := "silences";
     NewTransport := fun uri _ _ => (None, Some ("cannot bind " +:+ uri)) |}.

(** The state after [NewAlertmanager(name, uri, opts...)], and the pointer
    it returned. *)
Definition after_new `{Externals} (name uri : string) (opts : list Option)
  (σ : state) : state :=
  (NewAlertmanager name uri opts σ).1.1.

Definition new_ptr `{Externals} (name uri : string) (opts : list Option)
  (σ : state) : ptr :=
  (NewAlertmanager name uri opts σ).1.2.

(** The state after [RegisterAlertmanager(am)] ranging in the map's own
    listing order; a panic leaves the state as it was. *)
Definition after_register `{Externals} (am : ptr) (σ : state) : state :=
  match RegisterAlertmanager (map_to_list (upstreams σ)) am σ with
  | Return (σ', _) => σ'
  | Panic => σ
  end.

(** The scenario of the specification: descriptors "primary" and
    "secondary" at two URIs, a second "primary" at a third URI, and
    "tertiary" at the URI of "primary". [scenario_heap] has the four
    descriptors at addresses 1 to 4 and an empty registry;
    [scenario_registry] has the first two registered. *)
Section Scenario.
Local Existing Instance sample_externals.

Definition scenario_heap : state :=
  after_new "tertiary" "http://a.example/api" []
    (after_new "primary" "http://c.example/api" [WithProxy true]
       (after_new "secondary" "http://b.example/api" []
          (after_new "primary" "http://a.example/api" [] init))).

Definition scenario_registry : state :=
  after_register (addr 2%positive) (after_register (addr 1%positive) scenario_heap).

(** What [NewAlertmanager] leaves in the cell of a descriptor built without
    options. *)
Definition plain_descriptor (name uri : string) : Alertmanager :=
  set_transport (Some uri) (new_descriptor name uri).

(** An option that always fails. *)
Definition failing_option (msg : string) : Option :=
  fun am => (am, Some msg).

End Scenario.

(** ** Properties *)

Section Properties.
Context `{Externals}.

Lemma length_append (s t : string) :
  String.length (s +:+ t) = String.length s + String.length t.
Proof.
  induction s as [|c s IH]; [done|].
  change (String c s +:+ t) with (String c (s +:+ t)). simpl. by rewrite IH.
Qed.

Lemma append_inj_l (s1 s2 t : string) : s1 +:+ t = s2 +:+ t → s1 = s2.
Proof.
  revert s2. induction s1 as [|c1 s1 IH]; intros [|c2 s2] Heq.
  - done.
  - apply (f_equal String.length) in Heq. rewrite !length_append in Heq.
    simpl in Heq. lia.
  - apply (f_equal String.length) in Heq. rewrite !length_append in Heq.
    simpl in Heq. lia.
  - change (String c1 (s1 +:+ t) = String c2 (s2 +:+ t)) in Heq.
    injection Heq as -> Heq. f_equal. by apply IH.
Qed.

Lemma last_byte_app (s t : string) :
  t ≠ "" → last_byte (s +:+ t) = last_byte t.
Proof.
  intros Ht. induction s as [|c s IH]; [done|].
  change (String c s +:+ t) with (String c (s +:+ t)).
  cbn [last_byte]. rewrite IH.
  destruct (s +:+ t) eqn:E; [|done].
  destruct s as [|c' s]; [by destruct Ht|].
  change (String c' s +:+ t) with (String c' (s +:+ t)) in E. discriminate.
Qed.

Lemma append_nonempty (s t : string) : t ≠ "" → s +:+ t ≠ "".
Proof.
  intros Ht. destruct s as [|c s]; [done|].
  change (String c s +:+ t) with (String c (s +:+ t)). discriminate.
Qed.

Local Ltac last_byte_of_message :=
  repeat (rewrite last_byte_app by (repeat apply append_nonempty; discriminate));
  reflexivity.

Lemma last_byte_DuplicateName name :
  last_byte (DuplicateName name) = Some "t"%char.
Proof. unfold DuplicateName. last_byte_of_message. Qed.

Lemma last_byte_DuplicateSource name uri :
  last_byte (DuplicateSource name uri) = Some "'"%char.
Proof. unfold DuplicateSource. last_byte_of_message. Qed.

Lemma DuplicateName_not_DuplicateSource name name' uri :
  DuplicateName name ≠ DuplicateSource name' uri.
Proof.
  intros E. apply (f_equal last_byte) in E.
  rewrite last_byte_DuplicateName, last_byte_DuplicateSource in E.
  discriminate.
Qed.

(** *** The loop over the registered sources *)

Lemma find_source_miss σ uri order :
  find_source σ uri order = Return None ↔
  Forall (λ kp, ∃ e, deref σ kp.2 = Some e ∧ URI e ≠ uri) order.
Proof.
  induction order as [|[k q] order IH]; simpl.
  - split; [constructor|done].
  - destruct (deref σ q) as [e|] eqn:Hq.
    + destruct (String.eqb_spec (URI e) uri) as [Heq|Hne].
      * split; [done|]. intros Hall. apply Forall_cons in Hall as [(e' & He' & Hne) _].
        simpl in He'. congruence.
      * rewrite IH. split.
        -- intros Hall. constructor; [|done]. exists e. done.
        -- intros Hall. by apply Forall_cons in Hall as [_ Hall].
    + split; [done|]. intros Hall.
      apply Forall_cons in Hall as [(e' & He' & _) _]. simpl in He'. congruence.
Qed.

Lemma find_source_hit σ uri order :
  Forall (λ kp, is_Some (deref σ kp.2)) order →
  (∃ k q e, (k, q) ∈ order ∧ deref σ q = Some e ∧ URI e = uri) →
  ∃ k q e, (k, q) ∈ order ∧ deref σ q = Some e ∧ URI e = uri
           ∧ find_source σ uri order
             = Return (Some (DuplicateSource (Name e) (URI e))).
Proof.
  induction order as [|[k q] order IH]; intros Hall (k0 & q0 & e0 & Hin & Hq0 & Huri).
  - by apply elem_of_nil in Hin.
  - apply Forall_cons in Hall as [[e He] Hall]. simpl in He. simpl. rewrite He.
    destruct (String.eqb_spec (URI e) uri) as [Heq|Hne].
    + exists k, q, e. split; [by left|done].
    + apply elem_of_cons in Hin as [Hhd|Hin]; [congruence|].
      destruct IH as (k1 & q1 & e1 & Hin1 & Hq1 & Huri1 & Hfind); [done|by eauto 6|].
      exists k1, q1, e1. split; [by right|done].
Qed.

Lemma visits_listing σ : visits σ (map_to_list (upstreams σ)).
Proof. by unfold visits. Qed.

Lemma visits_elem_of σ order k p :
  visits σ order → (k, p) ∈ order ↔ upstreams σ !! k = Some p.
Proof.
  unfold visits. intros Hv. rewrite Hv. apply elem_of_map_to_list.
Qed.

Lemma visits_all_deref σ order :
  registry_ok σ → visits σ order →
  Forall (λ kp, is_Some (deref σ kp.2)) order.
Proof.
  intros Hok Hv. apply Forall_forall. intros [k p] Hin. simpl.
  apply (Hok k). by apply (visits_elem_of σ order).
Qed.

(** *** Outcomes of a registration *)

Lemma register_taken σ order am a p :
  deref σ am = Some a →
  upstreams σ !! Name a = Some p →
  RegisterAlertmanager order am σ = Return (σ, Some (DuplicateName (Name a))).
Proof. intros Ha Hp. unfold RegisterAlertmanager. by rewrite Ha, Hp. Qed.

Lemma register_success_inv σ order am σ' :
  RegisterAlertmanager order am σ = Return (σ', None) →
  ∃ a, deref σ am = Some a
       ∧ upstreams σ !! Name a = None
       ∧ find_source σ (URI a) order = Return None
       ∧ σ' = {| heap := heap σ;
                 upstreams := <[Name a := am]> (upstreams σ);
                 logged := logged σ ++ [configured_line a] |}.
Proof.
  unfold RegisterAlertmanager. intros Hreg.
  destruct (deref σ am) as [a|]; [|done]. exists a.
  destruct (upstreams σ !! Name a); [done|].
  destruct (find_source σ (URI a) order) as [|[e|]]; [done|done|].
  by injection Hreg as <-.
Qed.

Lemma register_failure_inv σ order am σ' e :
  RegisterAlertmanager order am σ = Return (σ', Some e) → σ' = σ.
Proof.
  unfold RegisterAlertmanager. intros Hreg.
  destruct (deref σ am) as [a|]; [|done].
  destruct (upstreams σ !! Name a); [by injection Hreg as <-|].
  destruct (find_source σ (URI a) order) as [|[e'|]]; [done| |done].
  by injection Hreg as <-.
Qed.

Lemma register_success σ order am a :
  deref σ am = Some a →
  upstreams σ !! Name a = None →
  find_source σ (URI a) order = Return None →
  RegisterAlertmanager order am σ
  = Return ({| heap := heap σ;
               upstreams := <[Name a := am]> (upstreams σ);
               logged := logged σ ++ [configured_line a] |}, None).
Proof. intros Ha Hn Hf. unfold RegisterAlertmanager. by rewrite Ha, Hn, Hf. Qed.

Lemma register_heap σ order am σ' e :
  RegisterAlertmanager order am σ = Return (σ', e) → heap σ' = heap σ.
Proof.
  destruct e as [e|]; intros Hreg.
  - by apply register_failure_inv in Hreg as ->.
  - by apply register_success_inv in Hreg as (a & _ & _ & _ & ->).
Qed.

(** *** The registry only holds pointers that can be dereferenced *)

Lemma registry_ok_init : registry_ok init.
Proof. intros k p Hk. simpl in Hk. by rewrite lookup_empty in Hk. Qed.

Lemma registry_ok_register σ order am σ' e :
  registry_ok σ →
  RegisterAlertmanager order am σ = Return (σ', e) →
  registry_ok σ'.
Proof.
  intros Hok Hreg. destruct e as [e|].
  - by apply register_failure_inv in Hreg as ->.
  - apply register_success_inv in Hreg as (a & Ha & _ & _ & ->).
    intros k p. simpl. rewrite lookup_insert.
    case_decide as Hk.
    + intros [= <-]. unfold deref in *. simpl. by rewrite Ha.
    + intros Hp. destruct (Hok k p Hp) as [x Hx]. exists x.
      by destruct p.
Qed.

(** *** Names and URIs are unique in the registry *)

Lemma keyed_by_name_init : keyed_by_name init.
Proof. intros k q e Hk. simpl in Hk. by rewrite lookup_empty in Hk. Qed.

Lemma unique_sources_init : unique_sources init.
Proof. intros k1 k2 q1 q2 e1 e2 Hk. simpl in Hk. by rewrite lookup_empty in Hk. Qed.

Lemma keyed_by_name_register σ order am σ' e :
  keyed_by_name σ →
  RegisterAlertmanager order am σ = Return (σ', e) →
  keyed_by_name σ'.
Proof.
  intros Hkeyed Hreg. destruct e as [e|].
  - by apply register_failure_inv in Hreg as ->.
  - apply register_success_inv in Hreg as (a & Ha & _ & _ & ->).
    intros k q x. simpl. rewrite lookup_insert. case_decide as Hk.
    + intros [= <-] Hq. subst k.
      assert (x = a) as ->; [|done]. destruct am; simpl in *; congruence.
    + intros Hq Hx. apply (Hkeyed k q x Hq). by destruct q.
Qed.

Lemma unique_sources_register σ order am σ' e :
  registry_ok σ →
  visits σ order →
  unique_sources σ →
  RegisterAlertmanager order am σ = Return (σ', e) →
  unique_sources σ'.
Proof.
  intros Hok Hv Huniq Hreg. destruct e as [e|].
  - by apply register_failure_inv in Hreg as ->.
  - apply register_success_inv in Hreg as (a & Ha & _ & Hmiss & ->).
    assert (∀ k q x, upstreams σ !! k = Some q → deref σ q = Some x →
                     URI x ≠ URI a) as Hother.
    { intros k q x Hk Hx.
      apply find_source_miss in Hmiss. rewrite Forall_forall in Hmiss.
      destruct (Hmiss (k, q)) as (x' & Hx' & Hne);
        [by apply (visits_elem_of σ order)|].
      simpl in Hx'. congruence. }
    set (σ1 := {| heap := heap σ; upstreams := <[Name a:=am]> (upstreams σ);
                  logged := logged σ ++ [configured_line a] |}).
    assert (∀ q, deref σ1 q = deref σ q) as Hsame by (by intros [|l]).
    intros k1 k2 q1 q2 e1 e2. simpl. rewrite !lookup_insert, !Hsame.
    destruct (decide (Name a = k1)) as [<-|Hk1];
      destruct (decide (Name a = k2)) as [<-|Hk2];
      intros Hq1 Hq2 He1 He2 Huri; [done| | |].
    + injection Hq1 as <-. assert (e1 = a) as -> by congruence.
      by destruct (Hother k2 q2 e2 Hq2 He2).
    + injection Hq2 as <-. assert (e2 = a) as -> by congruence.
      by destruct (Hother k1 q1 e1 Hq1 He1).
    + by apply (Huniq k1 k2 q1 q2 e1 e2).
Qed.

(** The three invariants hold of every registry built by registrations. *)
Lemma registered_invariants σ ams σ' :
  registered σ ams σ' →
  registry_ok σ → keyed_by_name σ → unique_sources σ →
  registry_ok σ' ∧ keyed_by_name σ' ∧ unique_sources σ'.
Proof.
  induction 1 as [σ|σ order am σ1 ams σ2 Hv Hreg _ IH];
    intros Hok Hkeyed Huniq; [done|].
  apply IH.
  - by apply (registry_ok_register σ order am σ1 None).
  - by apply (keyed_by_name_register σ order am σ1 None).
  - by apply (unique_sources_register σ order am σ1 None).
Qed.

(** Under them, a descriptor of the registry with a given [Name] is the
    entry stored under that name. *)
Lemma registered_name_is_key σ k q e :
  keyed_by_name σ →
  upstreams σ !! k = Some q → deref σ q = Some e →
  upstreams σ !! Name e = Some q.
Proof. intros Hkeyed Hk Hq. by rewrite (Hkeyed k q e Hk Hq). Qed.

(** *** Claims about the registry *)

(** C1: when the descriptor's name is already a key of the registry,
    [RegisterAlertmanager] returns the error "... already exist" for that
    name and leaves the process state as it was: the map has the same
    entries, so the entry under that name is the same pointer, and the heap
    is the same, so that descriptor has the same URI, proxy flag, timeout and
    transport. This holds whatever the order of iteration. In a registry
    built by [RegisterAlertmanager] the keys are the names of the
    descriptors stored. *)
Theorem register_duplicate_name σ order am a existing :
  deref σ am = Some a →
  upstreams σ !! Name a = Some existing →
  RegisterAlertmanager order am σ = Return (σ, Some (DuplicateName (Name a)))
  ∧ ∀ σ' e, RegisterAlertmanager order am σ = Return (σ', e) →
      upstreams σ' = upstreams σ
      ∧ GetAlertmanagerByName (Name a) σ' = existing
      ∧ deref σ' existing = deref σ existing.
Proof.
  intros Ha Hex.
  pose proof (register_taken σ order am a existing Ha Hex) as Hreg.
  split; [done|]. intros σ' e. rewrite Hreg. intros [= <- <-].
  split; [done|]. split; [|done].
  unfold GetAlertmanagerByName. by rewrite Hex.
Qed.

(** C2: in a registry whose entries are all live descriptors, when the
    descriptor's name is not a key of the registry and a registered
    descriptor has the same URI, [RegisterAlertmanager] leaves the process
    state as it was and returns the error that reads
    "Alertmanager upstream '<name>' already collects from '<uri>'", with the
    [Name] and the [URI] of a registered descriptor that has that URI. No
    other name gives this message, so the message tells which descriptor is
    in the way. This holds for every order in which the map is ranged over.
    When URIs are unique in the registry, as they are in one built by
    [RegisterAlertmanager], the descriptor named is the one given. *)
Theorem register_duplicate_source σ order am a k q e :
  registry_ok σ →
  visits σ order →
  deref σ am = Some a →
  upstreams σ !! Name a = None →
  upstreams σ !! k = Some q →
  deref σ q = Some e →
  URI e = URI a →
  ∃ k' q' e',
    upstreams σ !! k' = Some q' ∧ deref σ q' = Some e' ∧ URI e' = URI a
    ∧ RegisterAlertmanager order am σ
      = Return (σ, Some ("Alertmanager upstream '" +:+ Name e'
                         +:+ "' already collects from '" +:+ URI e' +:+ "'"))
    ∧ RegisterAlertmanager order am σ
      = Return (σ, Some (DuplicateSource (Name e') (URI e')))
    ∧ (∀ name,
         "Alertmanager upstream '" +:+ name
           +:+ "' already collects from '" +:+ URI e' +:+ "'"
         = "Alertmanager upstream '" +:+ Name e'
             +:+ "' already collects from '" +:+ URI e' +:+ "'" →
         name = Name e')
    ∧ (unique_sources σ → k' = k ∧ q' = q ∧ e' = e).
Proof.
  intros Hok Hv Ha Hfree Hk Hq Huri.
  destruct (find_source_hit σ (URI a) order)
    as (k' & q' & e' & Hin' & Hq' & Huri' & Hfind).
  { by apply visits_all_deref. }
  { exists k, q, e. split; [|done]. by apply (visits_elem_of σ order). }
  apply (visits_elem_of σ order k' q' Hv) in Hin'.
  assert (RegisterAlertmanager order am σ
          = Return (σ, Some (DuplicateSource (Name e') (URI e')))) as Hreg.
  { unfold RegisterAlertmanager. by rewrite Ha, Hfree, Hfind. }
  exists k', q', e'. split; [done|]. split; [done|]. split; [done|].
  split; [exact Hreg|]. split; [exact Hreg|]. split.
  - intros name Heq. apply (inj (String.app _)) in Heq.
    by apply append_inj_l in Heq.
  - intros Huniq.
    assert (k' = k) as -> by (apply (Huniq k' k q' q e' e); congruence).
    assert (q' = q) as -> by congruence.
    split; [done|]. split; [done|]. congruence.
Qed.

(** C9: the name check comes first. When the descriptor collides with the
    registry on its name and on its URI, the error is the one for the name,
    and no message for a duplicate source reads the same. In particular,
    after a registration that succeeded, registering the same pointer again
    returns the error for the name and changes nothing. *)
Theorem register_name_checked_first :
  (∀ σ order am a,
      deref σ am = Some a →
      is_Some (upstreams σ !! Name a) →
      (∃ k q e, upstreams σ !! k = Some q ∧ deref σ q = Some e ∧ URI e = URI a) →
      RegisterAlertmanager order am σ = Return (σ, Some (DuplicateName (Name a)))
      ∧ ∀ name uri, DuplicateName (Name a) ≠ DuplicateSource name uri)
  ∧ (∀ σ order am σ1 order',
      RegisterAlertmanager order am σ = Return (σ1, None) →
      ∃ a, deref σ1 am = Some a
           ∧ RegisterAlertmanager order' am σ1
             = Return (σ1, Some (DuplicateName (Name a)))
           ∧ ∀ name uri, DuplicateName (Name a) ≠ DuplicateSource name uri).
Proof.
  split.
  - intros σ order am a Ha [p Hp] _. split.
    + by apply (register_taken σ order am a p).
    + intros name uri. apply DuplicateName_not_DuplicateSource.
  - intros σ order am σ1 order' Hreg.
    apply register_success_inv in Hreg as (a & Ha & _ & _ & ->).
    exists a. split; [by destruct am|]. split.
    + apply (register_taken _ order' am a am); [by destruct am|].
      simpl. apply lookup_insert_eq.
    + intros name uri. apply DuplicateName_not_DuplicateSource.
Qed.

(** C10: after a registration that succeeded, looking up the descriptor's
    name returns the very pointer that was registered, still pointing to the
    same contents, and looking up any other name returns what it returned
    before. *)
Theorem register_then_lookup σ order am σ' :
  RegisterAlertmanager order am σ = Return (σ', None) →
  ∃ a, deref σ am = Some a
       ∧ GetAlertmanagerByName (Name a) σ' = am
       ∧ deref σ' am = Some a
       ∧ ∀ name, name ≠ Name a →
           GetAlertmanagerByName name σ' = GetAlertmanagerByName name σ
           ∧ deref σ' (GetAlertmanagerByName name σ')
             = deref σ (GetAlertmanagerByName name σ).
Proof.
  intros Hreg. apply register_success_inv in Hreg as (a & Ha & _ & _ & ->).
  exists a. split; [done|]. unfold GetAlertmanagerByName. simpl.
  split; [by rewrite lookup_insert_eq|]. split; [by destruct am|].
  intros name Hne. rewrite lookup_insert_ne by done. split; [done|].
  by destruct (upstreams σ !! name) as [[|l]|].
Qed.

(** C4, as the code has it: [GetAlertmanagerByName] returns the pointer
    stored under the name when there is one, and the nil pointer otherwise.
    In a registry whose entries are all live descriptors, which is what
    [RegisterAlertmanager] builds, a stored pointer is never nil, so the
    result is nil exactly when the name is absent. *)
Theorem lookup_by_name σ name :
  registry_ok σ →
  (∀ am, upstreams σ !! name = Some am →
         GetAlertmanagerByName name σ = am ∧ am ≠ nil)
  ∧ (upstreams σ !! name = None → GetAlertmanagerByName name σ = nil)
  ∧ (GetAlertmanagerByName name σ = nil ↔ upstreams σ !! name = None).
Proof.
  intros Hok. unfold GetAlertmanagerByName.
  destruct (upstreams σ !! name) as [am|] eqn:Hn.
  - assert (am ≠ nil) as Hnn.
    { intros ->. by destruct (Hok name nil Hn) as [x Hx]. }
    split; [by intros ? [= <-]|]. split; [done|]. split; [done|done].
  - split; [done|]. split; done.
Qed.

(** *** Construction *)

Lemma apply_opts_app before after am :
  apply_opts (before ++ after) am
  = match apply_opts before am with
    | (am', Some e) => (am', Some e)
    | (am', None) => apply_opts after am'
    end.
Proof.
  revert am. induction before as [|opt before IH]; intros am; [done|].
  simpl. destruct (opt am) as [am' [e|]]; [done|]. apply IH.
Qed.

(** A property of the descriptor that every option preserves holds at the
    end of the loop if it held at its start. *)
Lemma apply_opts_invariant (P : Alertmanager → Prop) opts am :
  Forall (λ opt : Option, ∀ x, P x → P (opt x).1) opts →
  P am → P (apply_opts opts am).1.
Proof.
  intros Hall. revert am. induction Hall as [|opt opts Hopt _ IH]; intros am Ham.
  - done.
  - simpl. specialize (Hopt am Ham).
    destruct (opt am) as [am' [e|]]; [done|]. by apply IH.
Qed.

(** The two ways [NewAlertmanager] returns. *)
Lemma NewAlertmanager_aborted name uri opts σ am e :
  apply_opts opts (new_descriptor name uri) = (am, Some e) →
  NewAlertmanager name uri opts σ
  = (store (fresh (dom (heap σ))) am σ, nil, Some e).
Proof. intros Hopts. unfold NewAlertmanager. by rewrite Hopts. Qed.

Lemma NewAlertmanager_built name uri opts σ am :
  apply_opts opts (new_descriptor name uri) = (am, None) →
  NewAlertmanager name uri opts σ
  = (store (fresh (dom (heap σ)))
           (set_transport
              (NewTransport (URI am) (RequestTimeout am) (httpTransport am)).1 am)
           σ,
     addr (fresh (dom (heap σ))),
     (NewTransport (URI am) (RequestTimeout am) (httpTransport am)).2).
Proof.
  intros Hopts. unfold NewAlertmanager. rewrite Hopts.
  by destruct (NewTransport (URI am) (RequestTimeout am) (httpTransport am))
    as [t [e|]].
Qed.

Lemma deref_store l am σ : deref (store l am σ) (addr l) = Some am.
Proof. simpl. apply lookup_insert_eq. Qed.

Lemma deref_store_fresh am σ p :
  is_Some (deref σ p) →
  deref (store (fresh (dom (heap σ))) am σ) p = deref σ p.
Proof.
  intros [x Hx]. destruct p as [|l]; [done|]. simpl in *.
  apply lookup_insert_ne. intros <-.
  apply (is_fresh (dom (heap σ))). apply elem_of_dom. by exists x.
Qed.

(** The options of this file and the fields they leave alone. *)
Lemma WithProxy_keeps_timeout b : keeps_timeout (WithProxy b).
Proof. by intros am. Qed.

Lemma WithHTTPTransport_keeps_timeout t : keeps_timeout (WithHTTPTransport t).
Proof. by intros am. Qed.

Lemma WithProxy_keeps_snapshot b : keeps_snapshot (WithProxy b).
Proof. by intros am. Qed.

Lemma WithRequestTimeout_keeps_snapshot d : keeps_snapshot (WithRequestTimeout d).
Proof. by intros am. Qed.

Lemma WithHTTPTransport_keeps_snapshot t : keeps_snapshot (WithHTTPTransport t).
Proof. by intros am. Qed.

(** C3, as the code has it: [WithRequestTimeout] accepts every duration,
    zero and negative ones included. It returns no error and stores the
    duration in [RequestTimeout]; construction with it goes on to bind the
    transport and returns a descriptor with that timeout, together with
    whatever error the binding reports. *)
Theorem request_timeout_unchecked (d : Duration) :
  (∀ am, WithRequestTimeout d am = (set_RequestTimeout d am, None))
  ∧ ∀ name uri σ, ∃ σ' l am,
      NewAlertmanager name uri [WithRequestTimeout d] σ
      = (σ', addr l, (NewTransport uri d None).2)
      ∧ deref σ' (addr l) = Some am
      ∧ RequestTimeout am = d.
Proof.
  split; [done|]. intros name uri σ.
  eexists _, _, _. split.
  - by rewrite (NewAlertmanager_built name uri [WithRequestTimeout d] σ
                  (set_RequestTimeout d (new_descriptor name uri))).
  - split; [apply deref_store|done].
Qed.

(** C5: when no option of the list changes the timeout (as [WithProxy] and
    [WithHTTPTransport] do not), every descriptor [NewAlertmanager] returns
    has a [RequestTimeout] of exactly ten seconds. A descriptor is returned
    whenever no option fails; when [nil] is returned, an error is. *)
Theorem default_request_timeout name uri opts σ σ' p e :
  Forall keeps_timeout opts →
  NewAlertmanager name uri opts σ = (σ', p, e) →
  (p ≠ nil → ∃ am, deref σ' p = Some am ∧ RequestTimeout am = (10 * Second)%Z)
  ∧ ((apply_opts opts (new_descriptor name uri)).2 = None → p ≠ nil)
  ∧ (p = nil → is_Some e).
Proof.
  intros Hall Hnew.
  assert (RequestTimeout (apply_opts opts (new_descriptor name uri)).1
          = (10 * Second)%Z) as Hto.
  { apply (apply_opts_invariant (λ am, RequestTimeout am = (10 * Second)%Z));
      [|done].
    eapply Forall_impl; [exact Hall|]. intros opt Hopt x Hx.
    by rewrite Hopt. }
  destruct (apply_opts opts (new_descriptor name uri)) as [am [e'|]] eqn:Hopts.
  - rewrite (NewAlertmanager_aborted _ _ _ _ _ _ Hopts) in Hnew.
    injection Hnew as <- <- <-. split; [done|]. split; [done|]. by eexists.
  - rewrite (NewAlertmanager_built _ _ _ _ _ Hopts) in Hnew.
    injection Hnew as <- <- <-. split; [|done]. intros _.
    eexists. split; [apply deref_store|]. exact Hto.
Qed.

(** C6: when the options before [opt] all return a nil error and [opt]
    returns the error [e], [NewAlertmanager] returns the nil pointer and
    exactly [e], whatever options follow [opt]. The cell it had allocated for
    the descriptor holds the descriptor as [opt] left it: the options after
    [opt] have not been applied to it, and no pointer to it is returned. *)
Theorem option_error_aborts name uri before opt after σ am1 am2 e :
  apply_opts before (new_descriptor name uri) = (am1, None) →
  opt am1 = (am2, Some e) →
  ∃ σ', NewAlertmanager name uri (before ++ opt :: after) σ = (σ', nil, Some e)
        ∧ deref σ' (addr (fresh (dom (heap σ)))) = Some am2.
Proof.
  intros Hbefore Hopt. eexists. split.
  - apply NewAlertmanager_aborted.
    rewrite apply_opts_app, Hbefore. simpl. by rewrite Hopt.
  - apply deref_store.
Qed.


(** *** Listing *)

Lemma GetAlertmanagers_snd order : GetAlertmanagers order = order.*2.
Proof.
  unfold GetAlertmanagers.
  enough (∀ acc, fold_left (λ ams '(_, am), ams ++ [am]) order acc
                 = acc ++ order.*2) as Hgen by apply Hgen.
  induction order as [|[k q] order IH]; intros acc; simpl.
  - by rewrite app_nil_r.
  - rewrite IH. by rewrite <- app_assoc.
Qed.

Lemma registered_listing σ ams σ' :
  registered σ ams σ' →
  (map_to_list (upstreams σ')).*2 ≡ₚ (map_to_list (upstreams σ)).*2 ++ ams
  ∧ heap σ' = heap σ.
Proof.
  induction 1 as [σ|σ order am σ1 ams σ2 _ Hreg _ [IHl IHh]].
  - by rewrite app_nil_r.
  - apply register_success_inv in Hreg as (a & _ & Hfree & _ & ->).
    simpl in IHl, IHh. split; [|done].
    rewrite IHl, (map_to_list_insert _ _ _ Hfree). simpl.
    by rewrite Permutation_middle.
Qed.

Lemma always_registers_registered σ ams :
  always_registers σ ams → ∃ σ', registered σ ams σ'.
Proof.
  revert σ. induction ams as [|am ams IH]; intros σ Hall.
  - exists σ. constructor.
  - destruct (Hall (map_to_list (upstreams σ))) as (σ1 & Hreg & Hrest);
      [apply visits_listing|].
    destruct (IH σ1 Hrest) as [σ' Hσ']. exists σ'.
    apply (registered_cons σ (map_to_list (upstreams σ)) am σ1);
      [apply visits_listing|done|done].
Qed.

(** Descriptors whose names and URIs are pairwise distinct, and distinct
    from those already registered, are all accepted. *)
Lemma distinct_always_registers σ ams descs :
  registry_ok σ →
  Forall2 (λ p a, deref σ p = Some a) ams descs →
  NoDup (Name <$> descs) →
  NoDup (URI <$> descs) →
  (∀ a, a ∈ descs → upstreams σ !! Name a = None) →
  (∀ k q e a, upstreams σ !! k = Some q → deref σ q = Some e →
              a ∈ descs → URI e ≠ URI a) →
  always_registers σ ams.
Proof.
  revert σ descs. induction ams as [|am ams IH];
    intros σ descs Hok Hderef Hnames Huris Hfree Hsrc; [done|].
  apply Forall2_cons_inv_l in Hderef as (a & descs' & Ha & Hderef & ->).
  rewrite fmap_cons in Hnames, Huris.
  apply NoDup_cons in Hnames as [Hname Hnames].
  apply NoDup_cons in Huris as [Huri Huris].
  intros order Hv.
  assert (find_source σ (URI a) order = Return None) as Hfind.
  { apply find_source_miss. apply Forall_forall. intros [k q] Hin. simpl.
    apply (visits_elem_of σ order k q Hv) in Hin.
    destruct (Hok k q Hin) as [e He]. exists e. split; [done|].
    apply (Hsrc k q e a Hin He). by left. }
  assert (upstreams σ !! Name a = None) as Hnew by (apply Hfree; by left).
  pose proof (register_success σ order am a Ha Hnew Hfind) as Hreg.
  eexists. split; [exact Hreg|].
  set (σ1 := {| heap := heap σ; upstreams := <[Name a:=am]> (upstreams σ);
                logged := logged σ ++ [configured_line a] |}) in *.
  assert (∀ q, deref σ1 q = deref σ q) as Hsame by (by intros [|l]).
  apply (IH σ1 descs').
  - by apply (registry_ok_register σ order am σ1 None).
  - eapply Forall2_impl; [exact Hderef|]. intros q x Hq. by rewrite Hsame.
  - done.
  - done.
  - intros a' Hin'. simpl. rewrite lookup_insert_ne.
    + apply Hfree. by right.
    + intros Heq. apply Hname. rewrite Heq. apply list_elem_of_fmap.
      by exists a'.
  - intros k q e a' Hk Hq Hin'. simpl in Hk. rewrite Hsame in Hq.
    rewrite lookup_insert in Hk. case_decide as Hkey.
    + injection Hk as <-. assert (e = a) as -> by congruence.
      intros Heq. apply Huri. rewrite Heq. apply list_elem_of_fmap.
      by exists a'.
    + apply (Hsrc k q e a' Hk Hq). by right.
Qed.

(** C8: take descriptors with pairwise distinct names and pairwise distinct
    URIs and an empty registry, and register them in any order [ams']. Every
    registration succeeds, whatever order each call ranges in. After any
    such run, [GetAlertmanagers] returns, in some order, exactly the
    pointers registered: as many as were registered, and pointing to the
    descriptors registered, so with their names and URIs. The result is thus
    the same up to order whichever [ams'] was chosen. *)
Theorem list_all_after_registrations σ ams descs ams' :
  upstreams σ = ∅ →
  Forall2 (λ p a, deref σ p = Some a) ams descs →
  NoDup (Name <$> descs) →
  NoDup (URI <$> descs) →
  ams' ≡ₚ ams →
  always_registers σ ams'
  ∧ ∀ σ' order, registered σ ams' σ' → visits σ' order →
      GetAlertmanagers order ≡ₚ ams
      ∧ length (GetAlertmanagers order) = length ams
      ∧ deref σ' <$> GetAlertmanagers order ≡ₚ Some <$> descs.
Proof.
  intros Hempty Hderef Hnames Huris Hperm. split.
  - symmetry in Hperm.
    destruct (Permutation_Forall2 Hperm Hderef) as (descs' & Hperm' & Hderef').
    apply (distinct_always_registers σ ams' descs').
    + intros k q. rewrite Hempty. by rewrite lookup_empty.
    + done.
    + by rewrite <- Hperm'.
    + by rewrite <- Hperm'.
    + intros a _. rewrite Hempty. apply lookup_empty.
    + intros k q e a. rewrite Hempty. by rewrite lookup_empty.
  - intros σ' order Hrun Hv.
    apply registered_listing in Hrun as [Hlist Hheap].
    rewrite Hempty, map_to_list_empty in Hlist. simpl in Hlist.
    assert (GetAlertmanagers order ≡ₚ ams) as Hall.
    { rewrite GetAlertmanagers_snd. unfold visits in Hv.
      by rewrite Hv, Hlist. }
    split; [done|]. split; [by rewrite Hall|].
    rewrite Hall.
    enough (deref σ' <$> ams = Some <$> descs) as Heq by (by rewrite Heq).
    clear -Hderef Hheap.
    induction Hderef as [|am a ams descs Ha _ IH]; [done|].
    rewrite !fmap_cons, IH. f_equal.
    destruct am as [|l]; [done|]. simpl in *. by rewrite Hheap.
Qed.

(** *** Further properties of the registry *)

(** In a registry without nil entries the loop over the sources does not
    panic: it falls through when no source has the URI, and otherwise
    returns the error for a source that has it. *)
Lemma find_source_cases σ uri order :
  Forall (λ kp, is_Some (deref σ kp.2)) order →
  (find_source σ uri order = Return None
   ∧ ∀ k q x, (k, q) ∈ order → deref σ q = Some x → URI x ≠ uri)
  ∨ (∃ k q x, (k, q) ∈ order ∧ deref σ q = Some x ∧ URI x = uri
              ∧ find_source σ uri order
                = Return (Some (DuplicateSource (Name x) (URI x)))).
Proof.
  induction 1 as [|[k q] order [x Hx] _ IH]; simpl in *.
  - left. split; [done|]. intros k q x Hin. by apply elem_of_nil in Hin.
  - rewrite Hx. destruct (String.eqb_spec (URI x) uri) as [Heq|Hne].
    + right. exists k, q, x. split; [by left|done].
    + destruct IH as [[Hfind Hall]|(k' & q' & x' & Hin & Hq' & Huri & Hfind)].
      * left. split; [done|]. intros k' q' x' Hin Hq'.
        apply elem_of_cons in Hin as [[= -> ->]|Hin]; [congruence|].
        by apply (Hall k' q').
      * right. exists k', q', x'. split; [by right|done].
Qed.

Lemma register_decision σ order am a :
  registry_ok σ →
  visits σ order →
  deref σ am = Some a →
  ∃ σ' e,
    RegisterAlertmanager order am σ = Return (σ', e)
    ∧ (e = None ↔
       upstreams σ !! Name a = None
       ∧ ∀ k q x, upstreams σ !! k = Some q → deref σ q = Some x →
                  URI x ≠ URI a).
Proof.
  intros Hok Hv Ha. unfold RegisterAlertmanager. rewrite Ha.
  destruct (upstreams σ !! Name a) as [p|] eqn:Hname.
  - eexists _, _. split; [done|]. split; [done|]. by intros [? _].
  - destruct (find_source_cases σ (URI a) order (visits_all_deref σ order Hok Hv))
      as [[-> Hall]|(k & q & x & Hin & Hq & Huri & ->)].
    + eexists _, _. split; [done|]. split; [|done]. intros _. split; [done|].
      intros k q x Hk. apply (Hall k q x). by apply (visits_elem_of σ order).
    + eexists _, _. split; [done|]. split; [done|]. intros [_ Hall].
      apply (visits_elem_of σ order k q Hv) in Hin.
      by destruct (Hall k q x Hin Hq).
Qed.

(** X1: in a registry without nil entries, registering a live descriptor
    never panics, and it is accepted exactly when its name is not a key of
    the registry and no registered descriptor has its URI. *)
Theorem register_accepts_iff σ order am a :
  registry_ok σ →
  visits σ order →
  deref σ am = Some a →
  ∃ σ' e,
    RegisterAlertmanager order am σ = Return (σ', e)
    ∧ (e = None ↔
       upstreams σ !! Name a = None
       ∧ ∀ k q x, upstreams σ !! k = Some q → deref σ q = Some x →
                  URI x ≠ URI a).
Proof. apply register_decision. Qed.

(** X2: when the registry has no nil entry and no two entries with the same
    URI, the outcome of a registration does not depend on the order in which
    the map is ranged over. *)
Theorem register_order_irrelevant σ order1 order2 am :
  registry_ok σ →
  unique_sources σ →
  visits σ order1 →
  visits σ order2 →
  RegisterAlertmanager order1 am σ = RegisterAlertmanager order2 am σ.
Proof.
  intros Hok Huniq Hv1 Hv2. unfold RegisterAlertmanager.
  destruct (deref σ am) as [a|]; [|done].
  destruct (upstreams σ !! Name a); [done|].
  destruct (find_source_cases σ (URI a) order1 (visits_all_deref σ order1 Hok Hv1))
    as [[-> Hall1]|(k1 & q1 & x1 & Hin1 & Hq1 & Huri1 & ->)];
    destruct (find_source_cases σ (URI a) order2 (visits_all_deref σ order2 Hok Hv2))
    as [[-> Hall2]|(k2 & q2 & x2 & Hin2 & Hq2 & Huri2 & ->)].
  - done.
  - apply (visits_elem_of σ order2 k2 q2 Hv2) in Hin2.
    apply (visits_elem_of σ order1 k2 q2 Hv1) in Hin2.
    by destruct (Hall1 k2 q2 x2 Hin2 Hq2).
  - apply (visits_elem_of σ order1 k1 q1 Hv1) in Hin1.
    apply (visits_elem_of σ order2 k1 q1 Hv2) in Hin1.
    by destruct (Hall2 k1 q1 x1 Hin1 Hq1).
  - apply (visits_elem_of σ order1 k1 q1 Hv1) in Hin1.
    apply (visits_elem_of σ order2 k2 q2 Hv2) in Hin2.
    assert (k1 = k2) as -> by (apply (Huniq k1 k2 q1 q2 x1 x2); congruence).
    assert (x1 = x2) as -> by congruence. done.
Qed.

(** X3: a registration, whatever its outcome, removes no entry of the
    registry, replaces none, and changes no descriptor. *)
Theorem register_keeps_entries σ order am σ' e :
  RegisterAlertmanager order am σ = Return (σ', e) →
  upstreams σ ⊆ upstreams σ'
  ∧ heap σ' = heap σ
  ∧ ∀ name p, upstreams σ !! name = Some p →
      GetAlertmanagerByName name σ' = p ∧ deref σ' p = deref σ p.
Proof.
  intros Hreg.
  assert (upstreams σ ⊆ upstreams σ') as Hsub.
  { destruct e as [e|].
    - by apply register_failure_inv in Hreg as ->.
    - apply register_success_inv in Hreg as (a & _ & Hfree & _ & ->).
      simpl. by apply insert_subseteq. }
  pose proof (register_heap σ order am σ' e Hreg) as Hheap.
  split; [done|]. split; [done|]. intros name p Hp. split.
  - unfold GetAlertmanagerByName.
    by rewrite (lookup_weaken _ _ _ _ Hp Hsub).
  - destruct p as [|l]; [done|]. simpl. by rewrite Hheap.
Qed.

(** X6: a run of successful registrations sends one line to the logger per
    registration, in the order of the registrations, each with the name, the
    URI and the proxy flag of the descriptor registered. *)
Theorem registrations_logged σ ams descs σ' :
  Forall2 (λ p a, deref σ p = Some a) ams descs →
  registered σ ams σ' →
  logged σ' = logged σ ++ (configured_line <$> descs).
Proof.
  intros Hderef Hrun. revert descs Hderef.
  induction Hrun as [σ|σ order am σ1 ams σ2 _ Hreg _ IH]; intros descs Hderef.
  - apply Forall2_nil_inv_l in Hderef as ->. by rewrite app_nil_r.
  - apply Forall2_cons_inv_l in Hderef as (a & descs' & Ha & Hderef & ->).
    apply register_success_inv in Hreg as (a' & Ha' & _ & _ & ->).
    assert (a' = a) as -> by congruence.
    rewrite (IH descs').
    + simpl. by rewrite <- app_assoc.
    + eapply Forall2_impl; [exact Hderef|]. intros q x Hq. by destruct q.
Qed.

(** X7: whatever the order of iteration, [GetAlertmanagers] returns as many
    pointers as the registry has entries, and exactly those stored in it. In
    a registry without nil entries and keyed by name, the pointers returned
    are pairwise distinct, and each is found again by looking up the [Name] of
    its descriptor. *)
Theorem listing_matches_registry σ order :
  visits σ order →
  length (GetAlertmanagers order) = size (upstreams σ)
  ∧ (∀ p, p ∈ GetAlertmanagers order ↔ ∃ name, upstreams σ !! name = Some p)
  ∧ (registry_ok σ → keyed_by_name σ →
     NoDup (GetAlertmanagers order)
     ∧ ∀ p, p ∈ GetAlertmanagers order →
         ∃ a, deref σ p = Some a ∧ GetAlertmanagerByName (Name a) σ = p).
Proof.
  intros Hv. rewrite GetAlertmanagers_snd.
  assert (∀ p, p ∈ order.*2 ↔ ∃ name, upstreams σ !! name = Some p) as Hmem.
  { intros p. rewrite list_elem_of_fmap. split.
    - intros ([k q] & -> & Hin). exists k. by apply (visits_elem_of σ order).
    - intros [k Hk]. exists (k, p). split; [done|].
      by apply (visits_elem_of σ order). }
  split; [|split; [done|]].
  - unfold visits in Hv. by rewrite length_fmap, Hv, length_map_to_list.
  - intros Hok Hkeyed. split.
    + apply NoDup_fmap_2_strong.
      * intros [k1 q1] [k2 q2] Hin1 Hin2. simpl. intros <-.
        apply (visits_elem_of σ order k1 q1 Hv) in Hin1.
        apply (visits_elem_of σ order k2 q1 Hv) in Hin2.
        destruct (Hok k1 q1 Hin1) as [x Hx].
        by rewrite <- (Hkeyed k1 q1 x Hin1 Hx), <- (Hkeyed k2 q1 x Hin2 Hx).
      * unfold visits in Hv. rewrite Hv. apply NoDup_map_to_list.
    + intros p Hp. apply Hmem in Hp as [k Hk].
      destruct (Hok k p Hk) as [x Hx]. exists x. split; [done|].
      unfold GetAlertmanagerByName. by rewrite (Hkeyed k p x Hk Hx), Hk.
Qed.

(** *** Construction with the options of this file *)

Lemma apply_opts_settings ss am0 :
  ∃ am, apply_opts (option_of <$> ss) am0 = (am, None)
        ∧ Name am = Name am0
        ∧ URI am = URI am0
        ∧ ProxyRequests am = default (ProxyRequests am0) (last_proxy ss)
        ∧ RequestTimeout am = default (RequestTimeout am0) (last_timeout ss)
        ∧ httpTransport am = default (httpTransport am0) (last_round_trip ss)
        ∧ transport am = transport am0.
Proof.
  induction ss as [|s ss IH] using rev_ind.
  - exists am0. by repeat split.
  - destruct IH as (am1 & Hopts & Hname & Huri & Hproxy & Hto & Hrt & Htr).
    rewrite fmap_app, apply_opts_app, Hopts.
    unfold last_proxy, last_timeout, last_round_trip in *.
    rewrite !omap_app.
    destruct s as [b|d|t]; simpl; eexists; (split; [done|]); simpl;
      rewrite ?app_nil_r, ?last_snoc; split_and!; done.
Qed.

(** X8: with options built by [WithProxy], [WithRequestTimeout] and
    [WithHTTPTransport] only, construction never aborts. It returns a new
    descriptor with the name and the URI given; the proxy flag, the timeout
    and the round tripper are the argument of the last option of their kind,
    or false, ten seconds and none when there is no such option. The
    transport is the one bound for that URI, timeout and round tripper, and
    the error returned is the one of the binding. *)
Theorem construction_with_file_options name uri ss σ :
  ∃ am,
    NewAlertmanager name uri (option_of <$> ss) σ
    = (store (fresh (dom (heap σ))) am σ,
       addr (fresh (dom (heap σ))),
       (NewTransport uri (RequestTimeout am) (httpTransport am)).2)
    ∧ Name am = name
    ∧ URI am = uri
    ∧ ProxyRequests am = default false (last_proxy ss)
    ∧ RequestTimeout am = default (10 * Second)%Z (last_timeout ss)
    ∧ httpTransport am = default None (last_round_trip ss)
    ∧ transport am = (NewTransport uri (RequestTimeout am) (httpTransport am)).1.
Proof.
  destruct (apply_opts_settings ss (new_descriptor name uri))
    as (am1 & Hopts & Hname & Huri & Hproxy & Hto & Hrt & _).
  simpl in Hname, Huri, Hproxy, Hto, Hrt.
  exists (set_transport
            (NewTransport (URI am1) (RequestTimeout am1) (httpTransport am1)).1
            am1).
  split; [by rewrite (NewAlertmanager_built _ _ _ _ _ Hopts), Huri|].
  simpl. by rewrite Huri.
Qed.

(** X9: a descriptor built with the options of this file can be handed to
    [RegisterAlertmanager] whatever error construction returned. In a
    registry without nil entries the registration does not panic; it is
    accepted exactly when the name was not a key of the registry and no
    registered descriptor had the URI, and then looking up the name returns
    the pointer construction returned. *)
Theorem construct_then_register name uri ss σ σ1 p e order :
  registry_ok σ →
  NewAlertmanager name uri (option_of <$> ss) σ = (σ1, p, e) →
  visits σ1 order →
  ∃ am σ2 e2,
    deref σ1 p = Some am ∧ Name am = name ∧ URI am = uri
    ∧ RegisterAlertmanager order p σ1 = Return (σ2, e2)
    ∧ (e2 = None ↔
       upstreams σ !! name = None
       ∧ ∀ k q x, upstreams σ !! k = Some q → deref σ q = Some x →
                  URI x ≠ uri)
    ∧ (e2 = None → GetAlertmanagerByName name σ2 = p).
Proof.
  intros Hok Hnew Hv.
  destruct (apply_opts_settings ss (new_descriptor name uri))
    as (am1 & Hopts & Hname & Huri & _).
  rewrite (NewAlertmanager_built _ _ _ _ _ Hopts) in Hnew.
  injection Hnew as <- <- <-.
  set (l := fresh (dom (heap σ))) in *.
  set (am := set_transport
               (NewTransport (URI am1) (RequestTimeout am1) (httpTransport am1)).1
               am1) in *.
  assert (∀ k q, upstreams σ !! k = Some q →
                 deref (store l am σ) q = deref σ q) as Hsame.
  { intros k q Hk. apply deref_store_fresh. by apply (Hok k). }
  assert (registry_ok (store l am σ)) as Hok1.
  { intros k q Hk. simpl in Hk. rewrite (Hsame k q Hk). by apply (Hok k). }
  destruct (register_decision (store l am σ) order (addr l) am Hok1 Hv
              (deref_store l am σ)) as (σ2 & e2 & Hreg & Hiff).
  exists am, σ2, e2. split; [apply deref_store|]. split; [done|].
  split; [done|]. split; [done|]. split.
  - rewrite Hiff. simpl. change (Name am) with (Name am1).
    change (URI am) with (URI am1). rewrite Hname, Huri. simpl.
    split; intros [Hfree Hsrc]; (split; [done|]); intros k q x Hk Hx.
    + apply (Hsrc k q x Hk). by rewrite (Hsame k q Hk).
    + apply (Hsrc k q x Hk). by rewrite <- (Hsame k q Hk).
  - intros ->. apply register_success_inv in Hreg as (a & Ha & _ & _ & ->).
    rewrite deref_store in Ha. injection Ha as <-.
    unfold GetAlertmanagerByName. simpl.
    change (Name am) with (Name am1). rewrite Hname. simpl.
    by rewrite lookup_insert_eq.
Qed.

(** X5: in every state reached from the initial one by constructions with
    the options of this file and by registrations, the registry holds no nil
    entry, every entry is stored under the [Name] of its descriptor, and no
    two entries have the same [URI]. *)
Theorem reachable_registry_invariants σ :
  reachable σ →
  registry_ok σ ∧ keyed_by_name σ ∧ unique_sources σ.
Proof.
  induction 1 as [|σ name uri ss σ' p e _ (Hok & Hkeyed & Huniq) Hnew
                  |σ order am σ' e _ (Hok & Hkeyed & Huniq) Hv Hreg].
  - split; [apply registry_ok_init|].
    split; [apply keyed_by_name_init|apply unique_sources_init].
  - destruct (apply_opts_settings ss (new_descriptor name uri))
      as (am1 & Hopts & _).
    rewrite (NewAlertmanager_built _ _ _ _ _ Hopts) in Hnew.
    injection Hnew as <- _ _.
    set (l := fresh (dom (heap σ))).
    set (am := set_transport
                 (NewTransport (URI am1) (RequestTimeout am1) (httpTransport am1)).1
                 am1).
    assert (∀ k q, upstreams σ !! k = Some q →
                   deref (store l am σ) q = deref σ q) as Hsame.
    { intros k q Hk. apply deref_store_fresh. by apply (Hok k). }
    split; [|split].
    + intros k q Hk. simpl in Hk. rewrite (Hsame k q Hk). by apply (Hok k).
    + intros k q x Hk. simpl in Hk. rewrite (Hsame k q Hk).
      by apply Hkeyed.
    + intros k1 k2 q1 q2 x1 x2 Hk1 Hk2. simpl in Hk1, Hk2.
      rewrite (Hsame k1 q1 Hk1), (Hsame k2 q2 Hk2). by apply Huniq.
  - split; [|split].
    + by apply (registry_ok_register σ order am σ' e).
    + by apply (keyed_by_name_register σ order am σ' e).
    + by apply (unique_sources_register σ order am σ' e).
Qed.

(** *** Lookups after a run of registrations *)

Lemma registered_subseteq σ ams σ' :
  registered σ ams σ' → upstreams σ ⊆ upstreams σ'.
Proof.
  induction 1 as [σ|σ order am σ1 ams σ2 _ Hreg _ IH]; [done|].
  apply register_success_inv in Hreg as (a & _ & Hfree & _ & ->).
  etrans; [|exact IH]. simpl. by apply insert_subseteq.
Qed.

(** X10: after a run of successful registrations, looking up the name of
    each descriptor registered returns the pointer registered for it, and
    looking up any other name returns what it returned before the run: nil
    when the run started from an empty registry. *)
Theorem lookup_after_registrations σ ams descs σ' :
  Forall2 (λ p a, deref σ p = Some a) ams descs →
  registered σ ams σ' →
  (∀ i am a, ams !! i = Some am → descs !! i = Some a →
             GetAlertmanagerByName (Name a) σ' = am)
  ∧ (∀ name, name ∉ Name <$> descs →
             GetAlertmanagerByName name σ' = GetAlertmanagerByName name σ)
  ∧ (upstreams σ = ∅ →
     ∀ name, name ∉ Name <$> descs → GetAlertmanagerByName name σ' = nil).
Proof.
  intros Hderef Hrun.
  enough ((∀ i am a, ams !! i = Some am → descs !! i = Some a →
                     upstreams σ' !! Name a = Some am)
          ∧ (∀ name, name ∉ Name <$> descs →
                     upstreams σ' !! name = upstreams σ !! name))
    as [Hin Hout].
  { unfold GetAlertmanagerByName. split; [|split].
    - intros i am a Hi Ha. by rewrite (Hin i am a Hi Ha).
    - intros name Hname. by rewrite (Hout name Hname).
    - intros Hempty name Hname. rewrite (Hout name Hname), Hempty.
      by rewrite lookup_empty. }
  revert descs Hderef.
  induction Hrun as [σ|σ order am0 σ1 ams σ2 _ Hreg Hrest IH];
    intros descs Hderef.
  - split; [by intros i am a Hi|done].
  - apply Forall2_cons_inv_l in Hderef as (a0 & descs' & Ha0 & Hderef & ->).
    pose proof Hreg as Hinv.
    apply register_success_inv in Hinv as (a' & Ha' & _ & _ & Hσ1).
    assert (a' = a0) as -> by congruence.
    destruct (IH descs') as [Hin Hout].
    { eapply Forall2_impl; [exact Hderef|]. intros q x Hq.
      rewrite Hσ1. by destruct q. }
    split.
    + intros [|i] am a Hi Ha; simpl in Hi, Ha.
      * injection Hi as <-. injection Ha as <-.
        apply (lookup_weaken (upstreams σ1));
          [|exact (registered_subseteq _ _ _ Hrest)].
        rewrite Hσ1. simpl. apply lookup_insert_eq.
      * by apply (Hin i).
    + intros name Hname. rewrite fmap_cons in Hname.
      apply not_elem_of_cons in Hname as [Hne Hname].
      rewrite (Hout name Hname), Hσ1. simpl. by rewrite lookup_insert_ne.
Qed.

(** X11: when an option returns an error, the pointer construction returns
    is nil, and handing it to [RegisterAlertmanager] panics, whatever the
    registry holds. *)
Theorem register_after_aborted_construction name uri opts σ σ' p e order err :
  (apply_opts opts (new_descriptor name uri)).2 = Some err →
  NewAlertmanager name uri opts σ = (σ', p, e) →
  p = nil ∧ e = Some err ∧ RegisterAlertmanager order p σ' = Panic.
Proof.
  intros Hfail Hnew.
  destruct (apply_opts opts (new_descriptor name uri)) as [am e'] eqn:Hopts.
  simpl in Hfail. subst e'.
  rewrite (NewAlertmanager_aborted _ _ _ _ _ _ Hopts) in Hnew.
  by injection Hnew as <- <- <-.
Qed.

(** *** The error messages *)

(** X12: the error for a duplicate name tells the name: two names with the
    same message are the same name. *)
Theorem DuplicateName_inj name1 name2 :
  DuplicateName name1 = DuplicateName name2 → name1 = name2.
Proof.
  unfold DuplicateName. intros Heq.
  apply (inj (String.app _)) in Heq. by apply append_inj_l in Heq.
Qed.

(** *** What a run of successful registrations tells about its inputs *)

(** X13: the registry never accepts a duplicate. When a run of
    registrations succeeds in a registry without nil entries, the names of
    the descriptors registered are pairwise distinct and so are their URIs;
    none of the names was a key of the registry before the run, and none of
    the URIs was the URI of a descriptor registered before the run. *)
Theorem registered_distinct σ ams descs σ' :
  registry_ok σ →
  Forall2 (λ p a, deref σ p = Some a) ams descs →
  registered σ ams σ' →
  NoDup (Name <$> descs)
  ∧ NoDup (URI <$> descs)
  ∧ (∀ a, a ∈ descs → upstreams σ !! Name a = None)
  ∧ (∀ a k q x, a ∈ descs → upstreams σ !! k = Some q → deref σ q = Some x →
                URI x ≠ URI a).
Proof.
  intros Hok Hderef Hrun. revert descs Hok Hderef.
  induction Hrun as [σ|σ order am σ1 ams σ2 Hv Hreg _ IH];
    intros descs Hok Hderef.
  - apply Forall2_nil_inv_l in Hderef as ->.
    split; [constructor|]. split; [constructor|].
    split; [intros a Ha|intros a k q x Ha]; by apply elem_of_nil in Ha.
  - apply Forall2_cons_inv_l in Hderef as (a0 & descs' & Ha0 & Hderef & ->).
    pose proof (registry_ok_register σ order am σ1 None Hok Hreg) as Hok1.
    apply register_success_inv in Hreg as (a' & Ha' & Hfree & Hmiss & Hσ1).
    assert (a' = a0) as -> by congruence.
    assert (∀ q, deref σ1 q = deref σ q) as Hsame
      by (intros [|l]; by rewrite Hσ1).
    destruct (IH descs' Hok1) as (Hnames & Huris & Hfree' & Hsrc').
    { eapply Forall2_impl; [exact Hderef|]. intros q x Hq. by rewrite Hsame. }
    assert (upstreams σ1 !! Name a0 = Some am) as Hnew
      by (rewrite Hσ1; simpl; apply lookup_insert_eq).
    assert (upstreams σ ⊆ upstreams σ1) as Hsub
      by (rewrite Hσ1; simpl; by apply insert_subseteq).
    apply find_source_miss in Hmiss. rewrite Forall_forall in Hmiss.
    rewrite !fmap_cons. split; [|split; [|split]].
    + apply NoDup_cons. split; [|done].
      intros (a & Heq & Ha)%list_elem_of_fmap.
      specialize (Hfree' a Ha). congruence.
    + apply NoDup_cons. split; [|done].
      intros (a & Heq & Ha)%list_elem_of_fmap.
      apply (Hsrc' a (Name a0) am a0 Ha Hnew); [by rewrite Hsame|done].
    + intros a [->|Ha]%elem_of_cons; [done|].
      specialize (Hfree' a Ha).
      destruct (upstreams σ !! Name a) as [q|] eqn:Hq; [|done].
      by rewrite (lookup_weaken _ _ _ _ Hq Hsub) in Hfree'.
    + intros a k q x [->|Ha]%elem_of_cons Hk Hx.
      * destruct (Hmiss (k, q)) as (x' & Hx' & Hne);
          [by apply (visits_elem_of σ order)|].
        simpl in Hx'. congruence.
      * apply (Hsrc' a k q x Ha); [|by rewrite Hsame].
        by apply (lookup_weaken _ _ _ _ Hk Hsub).
Qed.

(** *** Reaching the states of the examples *)

Lemma reachable_after_new name uri ss σ :
  reachable σ → reachable (after_new name uri (option_of <$> ss) σ).
Proof.
  intros Hσ. unfold after_new.
  destruct (NewAlertmanager name uri (option_of <$> ss) σ) as [[σ' p] e] eqn:Hnew.
  by apply (reachable_new σ name uri ss σ' p e).
Qed.

Lemma reachable_after_register am σ :
  reachable σ → reachable (after_register am σ).
Proof.
  intros Hσ. unfold after_register.
  destruct (RegisterAlertmanager (map_to_list (upstreams σ)) am σ)
    as [|[σ' e]] eqn:Hreg; [done|].
  apply (reachable_register σ (map_to_list (upstreams σ)) am σ' e);
    [done|apply visits_listing|done].
Qed.

End Properties.

(** ** The claims on the scenario of the specification *)

Section Examples.
Local Existing Instance sample_externals.

Lemma scenario_registry_ok : registry_ok scenario_registry.
Proof.
  change (map_Forall (λ _ p, is_Some (deref scenario_registry p))
            (upstreams scenario_registry)).
  apply (bool_decide_unpack _). vm_compute. exact I.
Qed.

Lemma scenario_heap_unregistered k : upstreams scenario_heap !! k = None.
Proof.
  assert (upstreams scenario_heap = ∅) as -> by (vm_compute; reflexivity).
  apply lookup_empty.
Qed.

Lemma scenario_run :
  registered scenario_heap [addr 1%positive; addr 2%positive] scenario_registry.
Proof.
  apply (registered_cons scenario_heap [] (addr 1%positive)
           (after_register (addr 1%positive) scenario_heap)).
  { unfold visits. vm_compute. reflexivity. }
  { vm_compute. reflexivity. }
  apply (registered_cons _ [("primary", addr 1%positive)] (addr 2%positive)
           scenario_registry).
  { unfold visits. vm_compute. reflexivity. }
  { vm_compute. reflexivity. }
  constructor.
Qed.

Lemma scenario_unique_sources : unique_sources scenario_registry.
Proof.
  apply (registered_invariants _ _ _ scenario_run).
  - intros k q Hk. by rewrite scenario_heap_unregistered in Hk.
  - intros k q x Hk. by rewrite scenario_heap_unregistered in Hk.
  - intros k1 k2 q1 q2 x1 x2 Hk. by rewrite scenario_heap_unregistered in Hk.
Qed.

(** Registering the second "primary" (address 3) is refused for its name. *)
Lemma register_duplicate_name_witness :
  RegisterAlertmanager [("primary", addr 1%positive); ("secondary", addr 2%positive)]
    (addr 3%positive) scenario_registry
  = Return (scenario_registry,
            Some "Alertmanager upstream 'primary' already exist").
Proof.
  refine (proj1 (register_duplicate_name scenario_registry _ (addr 3%positive)
                   (set_transport (Some "http://c.example/api")
                      (set_ProxyRequests true
                         (new_descriptor "primary" "http://c.example/api")))
                   (addr 1%positive) _ _));
    vm_compute; reflexivity.
Defined.

(** Registering "tertiary" (address 4) is refused for its URI, which
    "primary" has, when the map is ranged over from "primary" on: the
    message names "primary". *)
Lemma register_duplicate_source_witness :
  RegisterAlertmanager
    [("primary", addr 1%positive); ("secondary", addr 2%positive)]
    (addr 4%positive) scenario_registry
  = Return (scenario_registry,
            Some "Alertmanager upstream 'primary' already collects from 'http://a.example/api'").
Proof.
  destruct (register_duplicate_source scenario_registry
              [("primary", addr 1%positive); ("secondary", addr 2%positive)]
              (addr 4%positive)
              (plain_descriptor "tertiary" "http://a.example/api")
              "primary" (addr 1%positive)
              (plain_descriptor "primary" "http://a.example/api"))
    as (k' & q' & e' & _ & _ & _ & Hreg & _ & _ & Hsame).
  - exact scenario_registry_ok.
  - unfold visits. vm_compute. apply perm_swap.
  - vm_compute. reflexivity.
  - vm_compute. reflexivity.
  - vm_compute. reflexivity.
  - vm_compute. reflexivity.
  - vm_compute. reflexivity.
  - destruct (Hsame scenario_unique_sources) as (_ & _ & ->). exact Hreg.
Defined.

(** Registering "primary" (address 1) a second time is refused for its
    name, although its URI is registered as well. *)
Lemma register_name_checked_first_witness :
  RegisterAlertmanager [] (addr 1%positive) scenario_registry
  = Return (scenario_registry,
            Some "Alertmanager upstream 'primary' already exist")
  ∧ ∃ a, deref (after_register (addr 1%positive) scenario_heap) (addr 1%positive)
         = Some a
         ∧ RegisterAlertmanager [] (addr 1%positive)
             (after_register (addr 1%positive) scenario_heap)
           = Return (after_register (addr 1%positive) scenario_heap,
                     Some (DuplicateName (Name a)))
         ∧ ∀ name uri, DuplicateName (Name a) ≠ DuplicateSource name uri.
Proof.
  split.
  - refine (proj1 (proj1 register_name_checked_first scenario_registry []
                     (addr 1%positive)
                     (plain_descriptor "primary" "http://a.example/api") _ _ _)).
    + vm_compute. reflexivity.
    + exists (addr 1%positive). vm_compute. reflexivity.
    + exists "primary", (addr 1%positive),
        (plain_descriptor "primary" "http://a.example/api").
      split; [|split]; vm_compute; reflexivity.
  - refine (proj2 register_name_checked_first scenario_heap []
              (addr 1%positive) _ [] _).
    vm_compute. reflexivity.
Defined.

(** After "primary" is registered, its name leads to address 1 and
    "secondary" is still absent. *)
Lemma register_then_lookup_witness :
  ∃ a, deref scenario_heap (addr 1%positive) = Some a
       ∧ GetAlertmanagerByName (Name a)
           (after_register (addr 1%positive) scenario_heap) = addr 1%positive
       ∧ deref (after_register (addr 1%positive) scenario_heap) (addr 1%positive)
         = Some a
       ∧ ∀ name, name ≠ Name a →
           GetAlertmanagerByName name
             (after_register (addr 1%positive) scenario_heap)
           = GetAlertmanagerByName name scenario_heap
           ∧ deref (after_register (addr 1%positive) scenario_heap)
               (GetAlertmanagerByName name
                  (after_register (addr 1%positive) scenario_heap))
             = deref scenario_heap (GetAlertmanagerByName name scenario_heap).
Proof.
  refine (register_then_lookup scenario_heap [] (addr 1%positive) _ _).
  vm_compute. reflexivity.
Defined.

(** In the scenario's registry, "primary" is found and "tertiary" is not. *)
Lemma lookup_by_name_witness :
  GetAlertmanagerByName "primary" scenario_registry = addr 1%positive
  ∧ GetAlertmanagerByName "tertiary" scenario_registry = nil.
Proof.
  assert (registry_ok scenario_registry) as Hok.
  { change (map_Forall (λ _ p, is_Some (deref scenario_registry p))
              (upstreams scenario_registry)).
    apply (bool_decide_unpack _). vm_compute. exact I. }
  split.
  - refine (proj1 (proj1 (lookup_by_name scenario_registry "primary" Hok)
                     (addr 1%positive) _)).
    vm_compute. reflexivity.
  - refine (proj1 (proj2 (lookup_by_name scenario_registry "tertiary" Hok)) _).
    vm_compute. reflexivity.
Defined.

(** C4, counterexample: looking up a name that is not registered returns
    the nil pointer, in the empty registry and in the scenario's. *)
Lemma lookup_missing_returns_nil :
  upstreams init !! "primary" = None
  ∧ GetAlertmanagerByName "primary" init = nil
  ∧ upstreams scenario_registry !! "tertiary" = None
  ∧ GetAlertmanagerByName "tertiary" scenario_registry = nil.
Proof. repeat split; vm_compute; reflexivity. Qed.

(** C3, counterexample: the timeout option returns a nil error for a zero
    and for a negative duration, and construction returns a descriptor with
    that timeout: with a nil error when the transport binds, and with the
    transport's error when it does not. *)
Lemma nonpositive_timeout_accepted :
  (WithRequestTimeout 0%Z (new_descriptor "primary" "http://a.example/api")).2
  = None
  ∧ (let r := NewAlertmanager "primary" "http://a.example/api"
                [WithRequestTimeout 0%Z] init in
     r.1.2 = addr 1%positive ∧ r.2 = None
     ∧ RequestTimeout <$> deref r.1.1 r.1.2 = Some 0%Z)
  ∧ (let r := NewAlertmanager "primary" "http://a.example/api"
                [WithRequestTimeout (-1 * Second)%Z] init in
     r.1.2 = addr 1%positive ∧ r.2 = None
     ∧ RequestTimeout <$> deref r.1.1 r.1.2 = Some (-1000000000)%Z)
  ∧ (let r := @NewAlertmanager unbound_externals "primary"
                "http://a.example/api" [WithRequestTimeout 0%Z] init in
     r.1.2 = addr 1%positive
     ∧ r.2 = Some "cannot bind http://a.example/api"
     ∧ RequestTimeout <$> deref r.1.1 r.1.2 = Some 0%Z).
Proof. repeat split; vm_compute; reflexivity. Qed.

(** Proxying and a custom round tripper leave the timeout at ten seconds. *)
Lemma default_request_timeout_witness :
  ∃ am, deref (after_new "primary" "http://a.example/api"
                 [WithProxy true; WithHTTPTransport (Some "round-tripper")] init)
          (addr 1%positive) = Some am
        ∧ RequestTimeout am = 10000000000%Z.
Proof.
  refine (proj1 (default_request_timeout "primary" "http://a.example/api"
                   [WithProxy true; WithHTTPTransport (Some "round-tripper")]
                   init _ (addr 1%positive) None _ _) _).
  - repeat constructor.
  - vm_compute. reflexivity.
  - discriminate.
Defined.

(** An option that fails after [WithProxy] makes construction return nil
    and its error; the timeout option after it is not applied: the cell holds
    the descriptor with the proxy flag set and the timeout of ten seconds. *)
Lemma option_error_aborts_witness :
  ∃ σ', NewAlertmanager "primary" "http://a.example/api"
          [WithProxy true; failing_option "bad option";
           WithRequestTimeout (5 * Second)%Z] init
        = (σ', nil, Some "bad option")
        ∧ deref σ' (addr 1%positive)
          = Some (set_ProxyRequests true
                    (new_descriptor "primary" "http://a.example/api")).
Proof.
  refine (option_error_aborts "primary" "http://a.example/api"
            [WithProxy true] (failing_option "bad option")
            [WithRequestTimeout (5 * Second)%Z] init _ _ "bad option" _ _);
    reflexivity.
Defined.


(** Registering "secondary" then "primary", or the other way round, lists
    the same two pointers. *)
Lemma list_all_after_registrations_witness :
  always_registers scenario_heap [addr 2%positive; addr 1%positive]
  ∧ ∀ σ' order,
      registered scenario_heap [addr 2%positive; addr 1%positive] σ' →
      visits σ' order →
      GetAlertmanagers order ≡ₚ [addr 1%positive; addr 2%positive]
      ∧ length (GetAlertmanagers order) = 2
      ∧ deref σ' <$> GetAlertmanagers order
        ≡ₚ Some <$> [plain_descriptor "primary" "http://a.example/api";
                     plain_descriptor "secondary" "http://b.example/api"].
Proof.
  refine (list_all_after_registrations scenario_heap
            [addr 1%positive; addr 2%positive]
            [plain_descriptor "primary" "http://a.example/api";
             plain_descriptor "secondary" "http://b.example/api"]
            [addr 2%positive; addr 1%positive] _ _ _ _ _).
  - vm_compute. reflexivity.
  - repeat constructor; vm_compute; reflexivity.
  - apply (bool_decide_unpack _). vm_compute. exact I.
  - apply (bool_decide_unpack _). vm_compute. exact I.
  - apply perm_swap.
Defined.

(** *** Further properties on the scenario *)

(** "tertiary" (address 4) is refused: its name is free, but "primary" has
    its URI. *)
Lemma register_accepts_iff_witness :
  ∃ σ' e,
    RegisterAlertmanager
      [("primary", addr 1%positive); ("secondary", addr 2%positive)]
      (addr 4%positive) scenario_registry = Return (σ', e)
    ∧ (e = None ↔
       upstreams scenario_registry !! "tertiary" = None
       ∧ ∀ k q x, upstreams scenario_registry !! k = Some q →
                  deref scenario_registry q = Some x →
                  URI x ≠ "http://a.example/api").
Proof.
  refine (register_accepts_iff scenario_registry
            [("primary", addr 1%positive); ("secondary", addr 2%positive)]
            (addr 4%positive)
            (plain_descriptor "tertiary" "http://a.example/api") _ _ _).
  - exact scenario_registry_ok.
  - unfold visits. vm_compute. apply perm_swap.
  - vm_compute. reflexivity.
Defined.

(** Ranging from "primary" or from "secondary" gives "tertiary" the same
    answer. *)
Lemma register_order_irrelevant_witness :
  RegisterAlertmanager
    [("primary", addr 1%positive); ("secondary", addr 2%positive)]
    (addr 4%positive) scenario_registry
  = RegisterAlertmanager
      [("secondary", addr 2%positive); ("primary", addr 1%positive)]
      (addr 4%positive) scenario_registry.
Proof.
  refine (register_order_irrelevant scenario_registry _ _ (addr 4%positive)
            scenario_registry_ok _ _ _).
  - exact scenario_unique_sources.
  - unfold visits. vm_compute. apply perm_swap.
  - unfold visits. vm_compute. reflexivity.
Defined.

(** Registering "secondary" keeps "primary" where it was. *)
Lemma register_keeps_entries_witness :
  upstreams (after_register (addr 1%positive) scenario_heap)
  ⊆ upstreams scenario_registry
  ∧ heap scenario_registry = heap (after_register (addr 1%positive) scenario_heap)
  ∧ ∀ name p,
      upstreams (after_register (addr 1%positive) scenario_heap) !! name = Some p →
      GetAlertmanagerByName name scenario_registry = p
      ∧ deref scenario_registry p
        = deref (after_register (addr 1%positive) scenario_heap) p.
Proof.
  refine (register_keeps_entries
            (after_register (addr 1%positive) scenario_heap)
            [("primary", addr 1%positive)] (addr 2%positive)
            scenario_registry None _).
  vm_compute. reflexivity.
Defined.

(** The scenario's registry satisfies the three invariants. *)
Lemma reachable_registry_invariants_witness :
  registry_ok scenario_registry
  ∧ keyed_by_name scenario_registry
  ∧ unique_sources scenario_registry.
Proof.
  refine (reachable_registry_invariants scenario_registry _).
  unfold scenario_registry, scenario_heap.
  repeat apply reachable_after_register.
  apply (reachable_after_new _ _ []).
  apply (reachable_after_new _ _ [Proxy true]).
  apply (reachable_after_new _ _ []).
  apply (reachable_after_new _ _ []).
  constructor.
Defined.

(** Registering the proxied "primary" (address 3) and then "secondary"
    logs two lines, the first with the proxy flag set. *)
Lemma registrations_logged_witness :
  logged (after_register (addr 2%positive)
            (after_register (addr 3%positive) scenario_heap))
  = logged scenario_heap
    ++ ["[primary] Configured Alertmanager source at http://c.example/api (proxied: true)";
        "[secondary] Configured Alertmanager source at http://b.example/api (proxied: false)"].
Proof.
  refine (registrations_logged scenario_heap
            [addr 3%positive; addr 2%positive]
            [set_transport (Some "http://c.example/api")
               (set_ProxyRequests true
                  (new_descriptor "primary" "http://c.example/api"));
             plain_descriptor "secondary" "http://b.example/api"]
            _ _ _).
  - repeat constructor; vm_compute; reflexivity.
  - apply (registered_cons scenario_heap [] (addr 3%positive)
             (after_register (addr 3%positive) scenario_heap)).
    { unfold visits. vm_compute. reflexivity. }
    { vm_compute. reflexivity. }
    apply (registered_cons _ [("primary", addr 3%positive)] (addr 2%positive)
             (after_register (addr 2%positive)
                (after_register (addr 3%positive) scenario_heap))).
    { unfold visits. vm_compute. reflexivity. }
    { vm_compute. reflexivity. }
    constructor.
Defined.

(** The scenario's registry lists two pointers. *)
Lemma listing_matches_registry_witness :
  length (GetAlertmanagers
            [("primary", addr 1%positive); ("secondary", addr 2%positive)])
  = size (upstreams scenario_registry)
  ∧ (∀ p, p ∈ GetAlertmanagers
                [("primary", addr 1%positive); ("secondary", addr 2%positive)]
          ↔ ∃ name, upstreams scenario_registry !! name = Some p)
  ∧ (registry_ok scenario_registry → keyed_by_name scenario_registry →
     NoDup (GetAlertmanagers
              [("primary", addr 1%positive); ("secondary", addr 2%positive)])
     ∧ ∀ p, p ∈ GetAlertmanagers
                  [("primary", addr 1%positive); ("secondary", addr 2%positive)] →
         ∃ a, deref scenario_registry p = Some a
              ∧ GetAlertmanagerByName (Name a) scenario_registry = p).
Proof.
  refine (listing_matches_registry scenario_registry
            [("primary", addr 1%positive); ("secondary", addr 2%positive)] _).
  unfold visits. vm_compute. apply perm_swap.
Defined.

(** A fifth descriptor, built with a negative timeout, is registered like
    any other. *)
Lemma construct_then_register_witness :
  ∃ am σ2 e2,
    deref (after_new "spare" "http://d.example/api"
             [WithRequestTimeout (-1)%Z] scenario_registry)
      (addr 5%positive) = Some am
    ∧ Name am = "spare" ∧ URI am = "http://d.example/api"
    ∧ RegisterAlertmanager
        [("primary", addr 1%positive); ("secondary", addr 2%positive)]
        (addr 5%positive)
        (after_new "spare" "http://d.example/api"
           [WithRequestTimeout (-1)%Z] scenario_registry)
      = Return (σ2, e2)
    ∧ (e2 = None ↔
       upstreams scenario_registry !! "spare" = None
       ∧ ∀ k q x, upstreams scenario_registry !! k = Some q →
                  deref scenario_registry q = Some x →
                  URI x ≠ "http://d.example/api")
    ∧ (e2 = None → GetAlertmanagerByName "spare" σ2 = addr 5%positive).
Proof.
  refine (construct_then_register "spare" "http://d.example/api"
            [Timeout (-1)%Z] scenario_registry _ (addr 5%positive) None
            [("primary", addr 1%positive); ("secondary", addr 2%positive)]
            scenario_registry_ok _ _).
  - vm_compute. reflexivity.
  - unfold visits. vm_compute. apply perm_swap.
Defined.

(** After the scenario's run, "primary" and "secondary" lead to addresses 1
    and 2, and any other name to nil. *)
Lemma lookup_after_registrations_witness :
  GetAlertmanagerByName "primary" scenario_registry = addr 1%positive
  ∧ GetAlertmanagerByName "secondary" scenario_registry = addr 2%positive
  ∧ GetAlertmanagerByName "tertiary" scenario_registry = nil.
Proof.
  pose proof (lookup_after_registrations scenario_heap
                [addr 1%positive; addr 2%positive]
                [plain_descriptor "primary" "http://a.example/api";
                 plain_descriptor "secondary" "http://b.example/api"]
                scenario_registry
                ltac:(repeat constructor; vm_compute; reflexivity)
                scenario_run) as (Hin & _ & Hout).
  split; [|split].
  - exact (Hin 0 (addr 1%positive) _ eq_refl eq_refl).
  - exact (Hin 1 (addr 2%positive) _ eq_refl eq_refl).
  - apply Hout; [vm_compute; reflexivity|].
    apply (bool_decide_unpack _). vm_compute. exact I.
Defined.

(** The two descriptors the scenario registers differ in name and URI. *)
Lemma registered_distinct_witness :
  NoDup ["primary"; "secondary"]
  ∧ NoDup ["http://a.example/api"; "http://b.example/api"]
  ∧ (∀ a, a ∈ [plain_descriptor "primary" "http://a.example/api";
               plain_descriptor "secondary" "http://b.example/api"] →
          upstreams scenario_heap !! Name a = None)
  ∧ (∀ a k q x,
       a ∈ [plain_descriptor "primary" "http://a.example/api";
            plain_descriptor "secondary" "http://b.example/api"] →
       upstreams scenario_heap !! k = Some q →
       deref scenario_heap q = Some x → URI x ≠ URI a).
Proof.
  refine (registered_distinct scenario_heap
            [addr 1%positive; addr 2%positive]
            [plain_descriptor "primary" "http://a.example/api";
             plain_descriptor "secondary" "http://b.example/api"]
            scenario_registry _ _ _).
  - intros k q Hk. by rewrite scenario_heap_unregistered in Hk.
  - repeat constructor; vm_compute; reflexivity.
  - apply (registered_cons scenario_heap [] (addr 1%positive)
             (after_register (addr 1%positive) scenario_heap)).
    { unfold visits. vm_compute. reflexivity. }
    { vm_compute. reflexivity. }
    apply (registered_cons _ [("primary", addr 1%positive)] (addr 2%positive)
             scenario_registry).
    { unfold visits. vm_compute. reflexivity. }
    { vm_compute. reflexivity. }
    constructor.
Defined.

(** A failing option yields nil, and registering nil panics. *)
Lemma register_after_aborted_construction_witness :
  nil = nil
  ∧ Some "bad option" = Some "bad option"
  ∧ RegisterAlertmanager [] nil
      (after_new "spare" "http://d.example/api"
         [failing_option "bad option"] init)
    = Panic.
Proof.
  refine (register_after_aborted_construction "spare" "http://d.example/api"
            [failing_option "bad option"] init _ nil (Some "bad option") []
            "bad option" _ _).
  - reflexivity.
  - vm_compute. reflexivity.
Defined.

(** The message for "primary" is the message for "primary" only. *)
Lemma DuplicateName_inj_witness : "primary" = "primary".
Proof.
  refine (DuplicateName_inj "primary" "primary" _). reflexivity.
Defined.

End Examples.
